(** * AutoBreezeBeats: the request layer of [src/main.py]

    [main.py] wires three managers together and exposes them over HTTP routes
    and one websocket.  The managers themselves ([DeviceManager],
    [PlaybackManager], [WebSocketManager]) live in sibling modules; here they
    are interfaces (type classes), and every handler of [main.py] is a
    computation in a small state-and-exception monad over the three manager
    states.  *)

From stdpp Require Import base strings list gmap fin_maps.

#[local] Open Scope string_scope.

(** ** Values that cross the module boundary *)

(** Modelled from the spec: the exception classes [main.py] imports from
    [devices.py]; each carries what the spec's error kinds carry. *)
Inductive Exn : Type :=
| ConnectError (address : string)
| DisconnectError (address : string)
| SinkError (reason : string).

(** Outcome of a handler: the value it returns, or the exception it raises. *)
Inductive Result (A : Type) : Type :=
| Returned (a : A)
| Raised (e : Exn).
Arguments Returned {A} a.
Arguments Raised {A} e.

(** Modelled from the spec: what a manager hands to the notifier it was
    constructed with, one constructor per kind of event. *)
Inductive Event : Type :=
| DeviceListChanged
| SinkChanged
| QueueChanged
| PlaybackStateChanged
| Notice (text : string).

(** Modelled from the spec: the request bodies [DeviceAction], [SinkAction]
    (of [devices.py]) and [VideoAction] (of [playback.py]), by the fields
    [main.py] reads; the address of a [SinkAction] may be absent. *)
Record DeviceAction : Type := { address : string }.
Record SinkAction : Type := { sink_address : option string }.
Record VideoAction : Type := { url : string }.

(** A JSON object with string values, in key order. *)
Definition JsonObject : Type := list (string * string).

(** ** The three managers, as [main.py] uses them *)

(** [ws_manager = WebSocketManager(log)]: it is built first and from the
    logger alone, so its methods act on its own state only. *)
Class WebSocketManager (W : Type) : Type := {
  notifier : Event → W → W;
  warn : string → W → W
}.

(** [device_manager = DeviceManager(log, ws_manager.notifier)]: a method
    changes the manager's state and may hand events to the notifier. *)
Class DeviceManager (D : Type) : Type := {
  connect_device : string → D → bool * list Event * D;
  disconnect_device : string → D → bool * list Event * D;
  set_sink : string → D → bool * list Event * D;
  unset_sinks : D → bool * list Event * D
}.

(** [playback_manager = PlaybackManager(log, ws_manager.notifier)].  The five
    transport controls are read as attributes in [main.py], like
    [list_devices] and [to_dict]: properties whose getter does the work.  [V]
    is a queued video, [R] its dictionary form. *)
Class PlaybackManager (P V R : Type) : Type := {
  play : P → list Event * P;
  pause : P → list Event * P;
  skip_next : P → list Event * P;
  skip_prev : P → list Event * P;
  skip_queue : P → list Event * P;
  queue_video_url : string → P → V * list Event * P;
  to_dict : V → R
}.

(** ** Program state and the handler monad *)

(** The module-level objects of [main.py]; [log] holds the records the
    handlers below emit through [log.info], oldest first (what the managers
    write to the logger they were given is not part of it). *)
Record World (D P W : Type) : Type := mkWorld {
  dm : D;
  pm : P;
  wm : W;
  log : list string
}.
Arguments mkWorld {D P W} dm pm wm log.
Arguments dm {D P W} w.
Arguments pm {D P W} w.
Arguments wm {D P W} w.
Arguments log {D P W} w.

Definition M (D P W A : Type) : Type := World D P W → Result A * World D P W.

#[global] Instance M_ret {D P W} : MRet (M D P W) :=
  λ A a w, (Returned a, w).

#[global] Instance M_bind {D P W} : MBind (M D P W) :=
  λ A B k m w,
    match m w with
    | (Returned a, w') => k a w'
    | (Raised e, w') => (Raised e, w')
    end.

Definition raise {D P W A} (e : Exn) : M D P W A :=
  λ w, (Raised e, w).

Definition log_info {D P W} (record : string) : M D P W () :=
  λ w, (Returned (), mkWorld (dm w) (pm w) (wm w) (log w ++ [record])).

(** Deliver the events a manager published, in publish order. *)
Definition publish `{!WebSocketManager W} (events : list Event) (w : W) : W :=
  foldl (λ acc ev, notifier ev acc) w events.

Definition call_dm `{!WebSocketManager W} {D P A}
    (method : D → A * list Event * D) : M D P W A :=
  λ w, let '(a, events, d) := method (dm w) in
       (Returned a, mkWorld d (pm w) (publish events (wm w)) (log w)).

Definition call_pm `{!WebSocketManager W} {D P A}
    (method : P → A * list Event * P) : M D P W A :=
  λ w, let '(a, events, p) := method (pm w) in
       (Returned a, mkWorld (dm w) p (publish events (wm w)) (log w)).

(** Reading a property of the playback manager: the getter runs, its value
    is dropped. *)
Definition get_pm `{!WebSocketManager W} {D P}
    (getter : P → list Event * P) : M D P W () :=
  call_pm (λ p, let '(events, p') := getter p in ((), events, p')).

(** The world after a property of the playback manager was read: the
    getter ran on the playback state, its events went to the notifier, and
    nothing else changed. *)
Definition dispatched `{!WebSocketManager W} {D P}
    (getter : P → list Event * P) (w : World D P W) : World D P W :=
  mkWorld (dm w) (getter (pm w)).2 (publish (getter (pm w)).1 (wm w)) (log w).

(** The world after the websocket manager was asked to warn. *)
Definition warned `{!WebSocketManager W} {D P}
    (text : string) (w : World D P W) : World D P W :=
  mkWorld (dm w) (pm w) (warn text (wm w)) (log w).

Definition call_wm {D P W} (method : W → W) : M D P W () :=
  λ w, (Returned (), mkWorld (dm w) (pm w) (method (wm w)) (log w)).

(** A [match] statement whose patterns are string literals: the arms are
    tried top to bottom with [==], [case _] catches the rest. *)
Fixpoint match_literal {A} (subject : string) (arms : list (string * A))
    (wildcard : A) : A :=
  match arms with
  | [] => wildcard
  | (literal, body) :: arms' =>
      if String.eqb subject literal then body
      else match_literal subject arms' wildcard
  end.

(** The literals of the websocket handler's [match], top to bottom. *)
Definition recognized : list string :=
  ["play"; "pause"; "next_chapter"; "prev_chapter"; "next_video"].

(** Arm [i] of that [match] applies to [data]: a literal arm when [data]
    equals its literal, [case _] when [data] equals none of them. *)
Definition arm_applies (data : string) (i : nat) : Prop :=
  match recognized !! i with
  | Some literal => data = literal
  | None => i = length recognized ∧ data ∉ recognized
  end.

(** Truth value of an optional string: [None] and [""] are falsy. *)
Definition truthy (s : option string) : option string :=
  match s with
  | Some (String c s') => Some (String c s')
  | Some EmptyString => None
  | None => None
  end.

(** ** The handlers *)

Section Handlers.
Context {D P V R W : Type}.
Context `{!DeviceManager D, !PlaybackManager P V R, !WebSocketManager W}.

#[local] Abbreviation M := (M D P W).

(** [POST /devices/connect] *)
Definition bluetooth_connect (action : DeviceAction) : M JsonObject :=
  let address := address action in
  log_info ("request to connect " +:+ address +:+ " recieved");;
  ok ← call_dm (connect_device address);
  if negb ok then raise (ConnectError address)
  else
    log_info ("Successfully connected to " +:+ address);;
    mret [("status", "Connected")].

(** [POST /devices/disconnect] *)
Definition bluetooth_disconnect (action : DeviceAction) : M JsonObject :=
  let address := address action in
  log_info ("request to disconnect " +:+ address +:+ " recieved");;
  ok ← call_dm (disconnect_device address);
  if negb ok then raise (DisconnectError address)
  else
    log_info ("Successfully disconnected from " +:+ address);;
    mret [("status", "Disconnected")].

(** [PUT /devices/set-sink] *)
Definition bluetooth_sink (action : SinkAction) : M JsonObject :=
  match truthy (sink_address action) with
  | Some address =>
      log_info ("Set " +:+ address +:+ " as new playback device");;
      ok ← call_dm (set_sink address);
      if negb ok then raise (SinkError ("Could not set sink to " +:+ address))
      else mret [("message", address +:+ " set as new sink")]
  | None =>
      log_info "Set default as playback device";;
      ok ← call_dm unset_sinks;
      if negb ok then raise (SinkError "Could not set sink to default")
      else mret [("message", "default set as new sink")]
  end.

(** [POST /video] *)
Definition load_video (action : VideoAction) : M R :=
  let url := url action in
  log_info ("Request to add " +:+ url +:+ " recieved");;
  video ← call_pm (queue_video_url url);
  mret (to_dict video).

(** The arms of the [match data] statement of the websocket handler. *)
Definition command_arms : list (string * M ()) :=
  [ ("play", get_pm play);
    ("pause", get_pm pause);
    ("next_chapter", get_pm skip_next);
    ("prev_chapter", get_pm skip_prev);
    ("next_video", get_pm skip_queue) ].

(** The body the [match] runs when arm number [i] is taken; the arm after
    the last literal is [case _]. *)
Definition arm_body (data : string) (i : nat) : M () :=
  match command_arms !! i with
  | Some (_, body) => body
  | None => call_wm (warn ("Unknown data " +:+ data))
  end.

(** Body of the [async for] loop, for one received message. *)
Definition on_message (data : string) : M () :=
  match_literal data command_arms
    (call_wm (warn ("Unknown data " +:+ data))).

(** [WEBSOCKET /ws]: the loop over the messages [recieve_data] yields on one
    connection; an exception would leave the loop. *)
Fixpoint websocket_endpoint (stream : list string) : M () :=
  match stream with
  | [] => mret ()
  | data :: stream' => on_message data;; websocket_endpoint stream'
  end.

End Handlers.

(** ** The device registry and the connection coordinator *)

(** Modelled from the spec: a known device.  The registry is keyed by the
    device's address, which is its sole identity. *)
Record Device : Type := mkDevice {
  name : string;
  connected : bool;
  is_current_sink : bool
}.

(** Modelled from the spec: the state of the device manager, which is the
    registry and the state of the hardware layer it drives. *)
Record Coordinator (HW : Type) : Type := mkCoordinator {
  registry : gmap string Device;
  hardware : HW
}.
Arguments mkCoordinator {HW} registry hardware.
Arguments registry {HW} c.
Arguments hardware {HW} c.

Definition with_connected (b : bool) (d : Device) : Device :=
  mkDevice (name d) b (is_current_sink d).

Definition with_sink (b : bool) (d : Device) : Device :=
  mkDevice (name d) (connected d) b.

Definition is_sink (reg : gmap string Device) (address : string) : bool :=
  match reg !! address with
  | Some d => is_current_sink d
  | None => false
  end.

(** Number of devices whose is-current-sink flag is set. *)
Definition sink_count (reg : gmap string Device) : nat :=
  size (filter (λ entry, is_current_sink entry.2 = true) reg).

Definition at_most_one_sink (reg : gmap string Device) : Prop :=
  (sink_count reg ≤ 1)%nat.

Section Coordinator.
Context {HW : Type}.

(** The hardware collaborator: each call reports success or failure and may
    change the state of the radio. *)
Variable hw_connect : string → HW → bool * HW.
Variable hw_disconnect : string → HW → bool * HW.
Variable hw_set_sink : option string → HW → bool * HW.

(** Modelled from the spec: [DeviceManager.connect_device] of [devices.py],
    which is not part of the sources at hand.  The hardware layer is told to
    connect; on success the device is marked connected and
    device-list-changed is published, on failure the registry is left as it
    was. *)
Definition coordinator_connect (address : string) (c : Coordinator HW)
    : bool * list Event * Coordinator HW :=
  let '(ok, hw) := hw_connect address (hardware c) in
  if ok then
    (true, [DeviceListChanged],
     mkCoordinator (alter (with_connected true) address (registry c)) hw)
  else (false, [], mkCoordinator (registry c) hw).

(** Modelled from the spec: [DeviceManager.disconnect_device] of
    [devices.py].  Symmetric to connecting; on success the device is marked
    not connected and is no longer the sink, device-list-changed is
    published, and sink-changed too when the device was the sink. *)
Definition coordinator_disconnect (address : string) (c : Coordinator HW)
    : bool * list Event * Coordinator HW :=
  let '(ok, hw) := hw_disconnect address (hardware c) in
  if ok then
    (true,
     DeviceListChanged ::
       (if is_sink (registry c) address then [SinkChanged] else []),
     mkCoordinator
       (alter (with_sink false ∘ with_connected false) address (registry c))
       hw)
  else (false, [], mkCoordinator (registry c) hw).

(** Modelled from the spec: [DeviceManager.set_sink] of [devices.py].  On
    success the flag is cleared on every device and set on the device with
    the given address; on failure the registry is left as it was. *)
Definition coordinator_set_sink (address : string) (c : Coordinator HW)
    : bool * list Event * Coordinator HW :=
  let '(ok, hw) := hw_set_sink (Some address) (hardware c) in
  if ok then
    (true, [SinkChanged],
     mkCoordinator
       (alter (with_sink true) address (with_sink false <$> registry c)) hw)
  else (false, [], mkCoordinator (registry c) hw).

(** Modelled from the spec: [DeviceManager.unset_sinks] of [devices.py].  On
    success the flag is cleared on all devices; on failure the registry is
    left as it was. *)
Definition coordinator_unset_sinks (c : Coordinator HW)
    : bool * list Event * Coordinator HW :=
  let '(ok, hw) := hw_set_sink None (hardware c) in
  if ok then
    (true, [SinkChanged], mkCoordinator (with_sink false <$> registry c) hw)
  else (false, [], mkCoordinator (registry c) hw).

Definition coordinator_manager : DeviceManager (Coordinator HW) := {|
  connect_device := coordinator_connect;
  disconnect_device := coordinator_disconnect;
  set_sink := coordinator_set_sink;
  unset_sinks := coordinator_unset_sinks
|}.

End Coordinator.

(** The worlds a client observes when it sends [requests] one after the
    other: each handler runs to completion on the world the previous one
    left, whether that one returned or raised. *)
Fixpoint observe {A B St : Type} (handler : A → St → B * St)
    (requests : list A) (st : St) : list (B * St) :=
  match requests with
  | [] => []
  | request :: requests' =>
      let outcome := handler request st in
      outcome :: observe handler requests' outcome.2
  end.

(** ** The playback queue *)

(** Modelled from the spec: the queue of [playback.py], its items and the
    transport state, by the attributes the data model lists. *)
Inductive Status : Type := Queued | Playing | Played.

Record Metadata : Type := mkMetadata {
  title : string;
  duration : nat
}.

(** A queued item; [metadata] stays [None] while the resolver has not
    supplied it. *)
Record QueueItem : Type := mkItem {
  source_url : string;
  metadata : option Metadata;
  status : Status
}.

Record PlaybackQueue : Type := mkQueue {
  queue : list QueueItem;
  cursor : option nat;
  playing : bool
}.

Section Playback.
Context {R : Type}.

(** The media-resolution collaborator, the dictionary form of an item, and
    the five transport controls. *)
Variable resolve : string → option Metadata.
Variable item_to_dict : QueueItem → R.
Variables transport_play transport_pause transport_skip_next
  transport_skip_prev transport_skip_queue
  : PlaybackQueue → list Event * PlaybackQueue.

(** Modelled from the spec: [PlaybackManager.queue_video_url] of
    [playback.py], which is not part of the sources at hand.  The metadata
    of the url is resolved, a new item is appended with status queued, and
    when the queue was empty the item is set to playing and the cursor is
    set to it; queue-changed is published, and playback-state-changed too
    when the queue was empty.  The created item is returned. *)
Definition playback_queue_video_url (u : string) (q : PlaybackQueue)
    : QueueItem * list Event * PlaybackQueue :=
  match queue q with
  | [] =>
      let item := mkItem u (resolve u) Playing in
      (item, [QueueChanged; PlaybackStateChanged],
       mkQueue (queue q ++ [item]) (Some (length (queue q))) true)
  | _ :: _ =>
      let item := mkItem u (resolve u) Queued in
      (item, [QueueChanged],
       mkQueue (queue q ++ [item]) (cursor q) (playing q))
  end.

Definition playback_manager : PlaybackManager PlaybackQueue QueueItem R := {|
  play := transport_play;
  pause := transport_pause;
  skip_next := transport_skip_next;
  skip_prev := transport_skip_prev;
  skip_queue := transport_skip_queue;
  queue_video_url := playback_queue_video_url;
  to_dict := item_to_dict
|}.

End Playback.

(** ** Stand-ins for the collaborators, for running the handlers *)

Module Doubles.

(** An event bus that keeps everything it was given, oldest first; a
    warning is kept as a notice. *)
Definition recording_bus : WebSocketManager (list Event) := {|
  notifier := λ ev bus, (bus ++ [ev])%list;
  warn := λ text bus, (bus ++ [Notice text])%list
|}.

(** A playback manager that keeps the names of the members that were used,
    oldest first. *)
Definition used (member : string) (calls : list string)
    : list Event * list string :=
  ([PlaybackStateChanged], (calls ++ [member])%list).

Definition recording_playback
    : PlaybackManager (list string) string JsonObject := {|
  play := used "play";
  pause := used "pause";
  skip_next := used "skip_next";
  skip_prev := used "skip_prev";
  skip_queue := used "skip_queue";
  queue_video_url := λ u calls, (u, [QueueChanged], (calls ++ ["queue_video_url"])%list);
  to_dict := λ u, [("url", u)]
|}.

(** Hardware that answers from a script, one entry per call, and fails
    once the script is used up. *)
Definition scripted {A : Type} (_ : A) (script : list bool)
    : bool * list bool :=
  match script with
  | [] => (false, [])
  | answer :: script' => (answer, script')
  end.

Definition scripted_devices : DeviceManager (Coordinator (list bool)) :=
  coordinator_manager scripted scripted scripted.

(** A transport control that does nothing. *)
Definition idle (q : PlaybackQueue) : list Event * PlaybackQueue := ([], q).

Definition headphones : Device := mkDevice "Headphones" true true.
Definition speaker : Device := mkDevice "Speaker" true false.

Definition two_devices : gmap string Device :=
  <["AA:AA" := headphones]> (<["BB:BB" := speaker]> ∅).

Definition world (script : list bool)
    : World (Coordinator (list bool)) (list string) (list Event) :=
  mkWorld (mkCoordinator two_devices script) [] [] [].

End Doubles.

(** Open a handler up to the state transformer it denotes. *)
Ltac run_handler :=
  unfold mbind, M_bind, log_info, raise, mret, M_ret.

(** * Properties of the websocket handler *)

Section Websocket.
Context {D P V R W : Type}.
Context `{!PlaybackManager P V R, !WebSocketManager W}.

#[local] Abbreviation World := (World D P W).
#[local] Abbreviation M := (M D P W).

Lemma command_arms_literals : (command_arms (D := D)).*1 = recognized.
Proof. reflexivity. Qed.

Lemma match_literal_wildcard {A} (data : string) (arms : list (string * A))
    (wildcard : A) :
  data ∉ arms.*1 → match_literal data arms wildcard = wildcard.
Proof.
  induction arms as [|[literal body] arms IH]; simpl; [done|].
  intros Hnot. apply not_elem_of_cons in Hnot as [Hne Hnot].
  destruct (String.eqb_spec data literal); [done | by apply IH].
Qed.

Lemma get_pm_dispatched (getter : P → list Event * P) (w : World) :
  get_pm getter w = (Returned (), dispatched getter w).
Proof.
  unfold get_pm, call_pm, dispatched. by destruct (getter (pm w)).
Qed.

Lemma on_message_returns (data : string) (w : World) :
  (on_message data w).1 = Returned ().
Proof.
  unfold on_message, command_arms, match_literal.
  repeat (case_match; [by rewrite get_pm_dispatched|]). done.
Qed.

Lemma websocket_endpoint_cons (data : string) (stream : list string)
    (w : World) :
  websocket_endpoint (data :: stream) w
  = websocket_endpoint stream (on_message data w).2.
Proof.
  pose proof (on_message_returns data w) as Hret.
  change (websocket_endpoint (data :: stream) w)
    with (mbind (M := M) (λ _, websocket_endpoint stream) (on_message data) w).
  unfold mbind, M_bind.
  destruct (on_message data w) as [[[]|e] w']; simpl in *; done.
Qed.

Lemma on_message_unknown (data : string) (w : World) :
  data ∉ recognized →
  on_message data w = (Returned (), warned ("Unknown data " +:+ data) w).
Proof.
  intros Hnot. unfold on_message.
  rewrite match_literal_wildcard; [done|].
  by rewrite command_arms_literals.
Qed.

(** What a message does to the playback state depends on the playback state
    alone. *)
Lemma on_message_pm (data : string) (w1 w2 : World) :
  pm w1 = pm w2 → pm (on_message data w1).2 = pm (on_message data w2).2.
Proof.
  intros Hpm. unfold on_message, command_arms, match_literal.
  repeat (case_match;
          [rewrite !get_pm_dispatched; simpl; by rewrite Hpm|]).
  done.
Qed.

Lemma websocket_endpoint_pm (stream : list string) (w1 w2 : World) :
  pm w1 = pm w2 →
  pm (websocket_endpoint stream w1).2 = pm (websocket_endpoint stream w2).2.
Proof.
  revert w1 w2. induction stream as [|data stream IH]; intros w1 w2 Hpm.
  - done.
  - rewrite !websocket_endpoint_cons. by apply IH, on_message_pm.
Qed.

(** C3: each of the five recognized command strings runs the matching
    member of the playback manager, on the playback state of the moment:
    "play" runs play, "pause" runs pause, "next_chapter" runs skip_next,
    "prev_chapter" runs skip_prev and "next_video" runs skip_queue; the
    events it publishes reach the notifier and nothing else changes. *)
Theorem recognized_commands_dispatch (w : World) :
  on_message "play" w = (Returned (), dispatched play w)
  ∧ on_message "pause" w = (Returned (), dispatched pause w)
  ∧ on_message "next_chapter" w = (Returned (), dispatched skip_next w)
  ∧ on_message "prev_chapter" w = (Returned (), dispatched skip_prev w)
  ∧ on_message "next_video" w = (Returned (), dispatched skip_queue w).
Proof.
  repeat split; unfold on_message; simpl; apply get_pm_dispatched.
Qed.

(** C10: recognition is by exact, case-sensitive equality with the five
    literals.  For every message exactly one arm of the match applies, and
    the handler runs the body of that arm; a message that equals none of the
    five literals, such as "Play" or "play " with a trailing blank, takes
    the wildcard arm, which warns about unknown data. *)
Theorem command_recognition_exact (data : string) :
  (∃ i, arm_applies data i
        ∧ (∀ j, arm_applies data j → j = i)
        ∧ on_message (D := D) data = arm_body data i)
  ∧ (data ∉ recognized →
     ∀ w : World,
       on_message data w
       = (Returned (), warned ("Unknown data " +:+ data) w))
  ∧ ("Play" ∉ recognized)
  ∧ ("play " ∉ recognized).
Proof.
  split; [|split; [intros Hnot w; by apply on_message_unknown|]].
  - destruct (decide (data ∈ recognized)) as [Hin|Hnot].
    + assert (∀ j, arm_applies data (5 + j) → False) as Hwild.
      { intros j. unfold arm_applies. simpl. intros [_ Hnot]. done. }
      unfold recognized in Hin. rewrite !elem_of_cons in Hin.
      rewrite elem_of_nil in Hin.
      destruct Hin as [->|[->|[->|[->|[->|[]]]]]];
        [exists 0|exists 1|exists 2|exists 3|exists 4];
        (split; [reflexivity|]);
        (split; [|reflexivity]);
        intros [|[|[|[|[|j]]]]] Happ;
        try reflexivity;
        try (by destruct (Hwild j));
        by vm_compute in Happ.
    + exists 5. split; [by split|]. split.
      * intros [|[|[|[|[|j]]]]] Happ;
          try (exfalso; apply Hnot; vm_compute in Happ; subst data;
               set_solver).
        unfold arm_applies in Happ. simpl in Happ. by destruct Happ.
      * unfold on_message, arm_body.
        rewrite match_literal_wildcard; [done|].
        by rewrite command_arms_literals.
  - split; compute_done.
Qed.

(** C2: a message that is none of the five recognized commands makes the
    handler warn about it and change nothing else, the playback state
    included; the loop goes on with the next message, the rest of the stream
    drives the playback state exactly as it would have without the unknown
    message, and a recognized command that comes next on the connection
    runs its member of the playback manager, on the playback state the
    unknown message left untouched. *)
Theorem unknown_command_warns (data : string) (stream : list string)
    (w : World) :
  data ∉ recognized →
  let w' := warned ("Unknown data " +:+ data) w in
  on_message data w = (Returned (), w')
  ∧ websocket_endpoint (data :: stream) w = websocket_endpoint stream w'
  ∧ pm (websocket_endpoint (data :: stream) w).2
    = pm (websocket_endpoint stream w).2
  ∧ websocket_endpoint (data :: "play" :: stream) w
    = websocket_endpoint stream (dispatched play w')
  ∧ websocket_endpoint (data :: "pause" :: stream) w
    = websocket_endpoint stream (dispatched pause w')
  ∧ websocket_endpoint (data :: "next_chapter" :: stream) w
    = websocket_endpoint stream (dispatched skip_next w')
  ∧ websocket_endpoint (data :: "prev_chapter" :: stream) w
    = websocket_endpoint stream (dispatched skip_prev w')
  ∧ websocket_endpoint (data :: "next_video" :: stream) w
    = websocket_endpoint stream (dispatched skip_queue w').
Proof.
  intros Hnot w'. pose proof (on_message_unknown data w Hnot) as Hwarn.
  fold w' in Hwarn.
  assert (∀ rest, websocket_endpoint (data :: rest) w
                  = websocket_endpoint rest w') as Hnext.
  { intros rest. by rewrite websocket_endpoint_cons, Hwarn. }
  split; [done|]. split; [apply Hnext|].
  split; [rewrite Hnext; by apply websocket_endpoint_pm|].
  repeat split; rewrite Hnext, websocket_endpoint_cons;
    unfold on_message; simpl; by rewrite get_pm_dispatched.
Qed.

End Websocket.

(** * Properties of the device routes, for any device manager *)

Section Devices.
Context {D P W : Type}.
Context `{!DeviceManager D, !WebSocketManager W}.

#[local] Abbreviation World := (World D P W).

(** The world a call of a device manager method leaves. *)
Lemma call_dm_world {A} (method : D → A * list Event * D) (w : World) :
  call_dm method w
  = (Returned (method (dm w)).1.1,
     mkWorld (method (dm w)).2 (pm w)
       (publish (method (dm w)).1.2 (wm w)) (log w)).
Proof. unfold call_dm. by destruct (method (dm w)) as [[a events] d]. Qed.

Lemma bluetooth_connect_outcome (action : DeviceAction) (w : World) :
  let '(ok, events, d) := connect_device (address action) (dm w) in
  let heard := publish events (wm w) in
  let request := "request to connect " +:+ address action +:+ " recieved" in
  bluetooth_connect action w
  = if ok then
      (Returned [("status", "Connected")],
       mkWorld d (pm w) heard
         (log w ++ [request;
                    "Successfully connected to " +:+ address action]))
    else
      (Raised (ConnectError (address action)),
       mkWorld d (pm w) heard (log w ++ [request])).
Proof.
  unfold bluetooth_connect. run_handler.
  rewrite call_dm_world. simpl.
  destruct (connect_device (address action) (dm w)) as [[[] events] d];
    simpl; [by rewrite <- app_assoc | done].
Qed.

Lemma bluetooth_sink_outcome (action : SinkAction) (w : World) :
  bluetooth_sink action w
  = match truthy (sink_address action) with
    | Some address =>
        let '(ok, events, d) := set_sink address (dm w) in
        (if ok then Returned [("message", address +:+ " set as new sink")]
         else Raised (SinkError ("Could not set sink to " +:+ address)),
         mkWorld d (pm w) (publish events (wm w))
           (log w ++ ["Set " +:+ address +:+ " as new playback device"]))
    | None =>
        let '(ok, events, d) := unset_sinks (dm w) in
        (if ok then Returned [("message", "default set as new sink")]
         else Raised (SinkError "Could not set sink to default"),
         mkWorld d (pm w) (publish events (wm w))
           (log w ++ ["Set default as playback device"]))
    end.
Proof.
  unfold bluetooth_sink. run_handler.
  destruct (truthy (sink_address action)) as [address|];
    rewrite call_dm_world; simpl.
  - by destruct (set_sink address (dm w)) as [[[] events] d].
  - by destruct (unset_sinks (dm w)) as [[[] events] d].
Qed.

(** C5: the disconnect route answers with the status Disconnected when the
    manager's disconnect reports success, and raises DisconnectError
    carrying the requested address when it reports failure. *)
Theorem disconnect_outcome (action : DeviceAction) (w : World) :
  let '(ok, events, d) := disconnect_device (address action) (dm w) in
  (bluetooth_disconnect action w).1
  = (if ok then Returned [("status", "Disconnected")]
     else Raised (DisconnectError (address action)))
  ∧ dm (bluetooth_disconnect action w).2 = d.
Proof.
  unfold bluetooth_disconnect. run_handler.
  rewrite call_dm_world. simpl.
  by destruct (disconnect_device (address action) (dm w)) as [[[] events] d].
Qed.

(** C9: a set-sink request whose address is absent or the empty string takes
    the unset branch: the manager's unset_sinks runs on the device state,
    set_sink does not, and the answer is the default-sink message (or the
    default-sink error when unset_sinks reports failure). *)
Theorem falsy_address_unsets (action : SinkAction) (w : World) :
  sink_address action = None ∨ sink_address action = Some "" →
  let '(ok, events, d) := unset_sinks (dm w) in
  bluetooth_sink action w
  = (if ok then Returned [("message", "default set as new sink")]
     else Raised (SinkError "Could not set sink to default"),
     mkWorld d (pm w) (publish events (wm w))
       (log w ++ ["Set default as playback device"])).
Proof.
  intros Hfalsy. rewrite bluetooth_sink_outcome.
  destruct Hfalsy as [-> | ->]; simpl;
    by destruct (unset_sinks (dm w)) as [[ok events] d].
Qed.

End Devices.

(** * Properties of the registry *)

Section Registry.
Implicit Types (reg : gmap string Device) (a : string) (d : Device).

Lemma sink_count_cleared reg : sink_count (with_sink false <$> reg) = 0.
Proof.
  unfold sink_count. apply map_size_empty_iff, map_empty. intros a.
  apply map_lookup_filter_None. right. intros d Hlook.
  apply lookup_fmap_Some in Hlook as (d0 & <- & _). done.
Qed.

(** When every device whose flag is set has the address [a], at most one
    device has its flag set. *)
Lemma at_most_one_sink_at reg a :
  (∀ a' d, reg !! a' = Some d → is_current_sink d = true → a' = a) →
  at_most_one_sink reg.
Proof.
  intros Honly. unfold at_most_one_sink, sink_count.
  set (sinks := filter (λ entry, is_current_sink entry.2 = true) reg).
  assert (∀ a' d, sinks !! a' = Some d → a' = a) as Hkeys.
  { intros a' d Hlook. apply map_lookup_filter_Some in Hlook as [Hreg Hflag].
    by apply (Honly a' d). }
  destruct (sinks !! a) as [d|] eqn:Hat.
  - assert (sinks = {[a := d]}) as ->; [|by rewrite map_size_singleton].
    apply map_eq. intros a'. destruct (decide (a' = a)) as [->|Hne].
    + by rewrite lookup_singleton_eq.
    + rewrite lookup_singleton_ne; [|done].
      destruct (sinks !! a') as [d'|] eqn:Hat'; [|done].
      by destruct Hne; apply (Hkeys a' d').
  - assert (sinks = ∅) as ->; [|by rewrite map_size_empty; lia].
    apply map_eq. intros a'. rewrite lookup_empty.
    destruct (sinks !! a') as [d'|] eqn:Hat'; [|done].
    pose proof (Hkeys a' d' Hat') as ->. congruence.
Qed.

(** The count says what it should: any two devices whose flag is set are
    the same device. *)
Lemma at_most_one_sink_unique reg :
  at_most_one_sink reg
  ↔ ∀ a1 a2 d1 d2,
      reg !! a1 = Some d1 → reg !! a2 = Some d2 →
      is_current_sink d1 = true → is_current_sink d2 = true → a1 = a2.
Proof.
  split.
  - unfold at_most_one_sink, sink_count.
    set (sinks := filter (λ entry, is_current_sink entry.2 = true) reg).
    intros Hsize a1 a2 d1 d2 Hreg1 Hreg2 Hflag1 Hflag2.
    assert (sinks !! a1 = Some d1) as Hat1
      by (by apply map_lookup_filter_Some).
    assert (sinks !! a2 = Some d2) as Hat2
      by (by apply map_lookup_filter_Some).
    destruct (decide (a1 = a2)) as [|Hne]; [done|].
    assert (size (delete a1 sinks) = 0) as Hrest.
    { rewrite map_size_delete, Hat1. simpl. lia. }
    apply map_size_empty_iff in Hrest.
    assert (delete a1 sinks !! a2 = Some d2) as Hkept
      by (by rewrite lookup_delete_ne).
    rewrite Hrest, lookup_empty in Hkept. done.
  - intros Hsame.
    destruct (decide (filter (λ entry, is_current_sink entry.2 = true) reg
                      = ∅)) as [Hnone|Hsome].
    + unfold at_most_one_sink, sink_count. rewrite Hnone, map_size_empty.
      lia.
    + apply map_choose in Hsome as (a & d & Hat).
      apply map_lookup_filter_Some in Hat as [Hreg Hflag].
      apply (at_most_one_sink_at reg a). intros a' d' Hreg' Hflag'.
      by apply (Hsame a' a d' d).
Qed.

Lemma at_most_one_sink_cleared reg :
  at_most_one_sink (with_sink false <$> reg).
Proof. unfold at_most_one_sink. rewrite sink_count_cleared. lia. Qed.

Lemma marked_others_clear reg a a' d :
  a' ≠ a →
  alter (with_sink true) a (with_sink false <$> reg) !! a' = Some d →
  is_current_sink d = false.
Proof.
  intros Hne. rewrite lookup_alter_ne; [|done].
  intros Hlook. apply lookup_fmap_Some in Hlook as (d0 & <- & _). done.
Qed.

Lemma at_most_one_sink_marked reg a :
  at_most_one_sink (alter (with_sink true) a (with_sink false <$> reg)).
Proof.
  apply (at_most_one_sink_at _ a). intros a' d Hlook Hflag.
  destruct (decide (a' = a)) as [|Hne]; [done|].
  pose proof (marked_others_clear reg a a' d Hne Hlook). congruence.
Qed.

Lemma marked_lookup reg a d :
  reg !! a = Some d →
  alter (with_sink true) a (with_sink false <$> reg) !! a
  = Some (with_sink true d).
Proof.
  intros Hlook. rewrite lookup_alter_eq, lookup_fmap, Hlook. done.
Qed.

End Registry.

(** * Properties of the device routes over the connection coordinator *)

Section Coordinated.
Context {HW P W : Type}.
Context `{!WebSocketManager W}.
Variable hw_connect : string → HW → bool * HW.
Variable hw_disconnect : string → HW → bool * HW.
Variable hw_set_sink : option string → HW → bool * HW.

#[local] Instance coordinated : DeviceManager (Coordinator HW) :=
  coordinator_manager hw_connect hw_disconnect hw_set_sink.

#[local] Abbreviation World := (World (Coordinator HW) P W).

(** The registry a set-sink request leaves: the one it found when the
    request raised, and otherwise all flags cleared, with the flag of the
    requested address set when an address was given. *)
Lemma bluetooth_sink_registry (action : SinkAction) (w : World) :
  let outcome := bluetooth_sink action w in
  match outcome.1 with
  | Raised _ => registry (dm outcome.2) = registry (dm w)
  | Returned _ =>
      registry (dm outcome.2)
      = match truthy (sink_address action) with
        | Some a =>
            alter (with_sink true) a (with_sink false <$> registry (dm w))
        | None => with_sink false <$> registry (dm w)
        end
  end.
Proof.
  simpl. rewrite bluetooth_sink_outcome.
  destruct (truthy (sink_address action)) as [a|]; simpl.
  - unfold coordinator_set_sink.
    by destruct (hw_set_sink (Some a) (hardware (dm w))) as [[] hw].
  - unfold coordinator_unset_sinks.
    by destruct (hw_set_sink None (hardware (dm w))) as [[] hw].
Qed.

Lemma bluetooth_sink_preserves (action : SinkAction) (w : World) :
  at_most_one_sink (registry (dm w)) →
  at_most_one_sink (registry (dm (bluetooth_sink action w).2)).
Proof.
  intros Hinv. pose proof (bluetooth_sink_registry action w) as Hreg.
  simpl in Hreg. destruct (bluetooth_sink action w).1.
  - rewrite Hreg. destruct (truthy (sink_address action)).
    + apply at_most_one_sink_marked.
    + apply at_most_one_sink_cleared.
  - by rewrite Hreg.
Qed.

(** C1: starting from a registry with at most one current sink, after every
    request of any sequence of set-sink requests (with or without an
    address, succeeding or failing) at most one device is the current sink;
    and whenever the operation behind a request succeeds, a request that
    sets the sink to an address leaves the flag cleared on every other
    device, and a request that unsets leaves it cleared on all devices. *)
Theorem at_most_one_sink_always (requests : list SinkAction) (w : World) :
  at_most_one_sink (registry (dm w)) →
  Forall (λ outcome, at_most_one_sink (registry (dm outcome.2)))
    (observe bluetooth_sink requests w)
  ∧ (∀ action (w0 : World),
       (hw_set_sink (truthy (sink_address action)) (hardware (dm w0))).1
       = true →
       match truthy (sink_address action) with
       | Some address =>
           ∀ a d, a ≠ address →
                  registry (dm (bluetooth_sink action w0).2) !! a = Some d →
                  is_current_sink d = false
       | None =>
           ∀ a d, registry (dm (bluetooth_sink action w0).2) !! a = Some d →
                  is_current_sink d = false
       end).
Proof.
  intros Hinv. split.
  - revert w Hinv. induction requests as [|action requests IH];
      intros w Hinv; simpl; constructor.
    + by apply bluetooth_sink_preserves.
    + by apply IH, bluetooth_sink_preserves.
  - intros action w0 Hok. rewrite bluetooth_sink_outcome.
    destruct (truthy (sink_address action)) as [address|]; simpl;
      intros a d.
    + unfold coordinator_set_sink.
      destruct (hw_set_sink (Some address) (hardware (dm w0))) as [ok hw].
      simpl in Hok. subst ok. simpl. apply marked_others_clear.
    + unfold coordinator_unset_sinks.
      destruct (hw_set_sink None (hardware (dm w0))) as [ok hw].
      simpl in Hok. subst ok. simpl.
      intros Hlook. apply lookup_fmap_Some in Hlook as (d0 & <- & _). done.
Qed.

(** C4: the connect route answers with the status Connected when the
    connect succeeds; when it fails the route raises ConnectError carrying
    the requested address, the registry is what it was before the request,
    and nothing was published. *)
Theorem connect_outcome (action : DeviceAction) (w : World) :
  let outcome := bluetooth_connect action w in
  if (hw_connect (address action) (hardware (dm w))).1
  then outcome.1 = Returned [("status", "Connected")]
  else outcome.1 = Raised (ConnectError (address action))
       ∧ registry (dm outcome.2) = registry (dm w)
       ∧ pm outcome.2 = pm w
       ∧ wm outcome.2 = wm w.
Proof.
  simpl. pose proof (bluetooth_connect_outcome action w) as Hrun.
  simpl in Hrun. unfold coordinator_connect in Hrun.
  destruct (hw_connect (address action) (hardware (dm w))) as [[] hw];
    simpl in *; by rewrite Hrun.
Qed.

(** C6: a set-sink request with a (non-empty) address marks the device of
    that address as the current sink when the operation succeeds, a request
    without one clears the flag on all devices when the operation succeeds,
    and in either branch a failing operation makes the route raise
    SinkError. *)
Theorem set_sink_outcome (action : SinkAction) (w : World) :
  let outcome := bluetooth_sink action w in
  match truthy (sink_address action) with
  | Some a =>
      if (hw_set_sink (Some a) (hardware (dm w))).1
      then outcome.1 = Returned [("message", a +:+ " set as new sink")]
           ∧ ∀ d, registry (dm w) !! a = Some d →
                  registry (dm outcome.2) !! a = Some (with_sink true d)
      else outcome.1 = Raised (SinkError ("Could not set sink to " +:+ a))
  | None =>
      if (hw_set_sink None (hardware (dm w))).1
      then outcome.1 = Returned [("message", "default set as new sink")]
           ∧ ∀ a d, registry (dm outcome.2) !! a = Some d →
                    is_current_sink d = false
      else outcome.1 = Raised (SinkError "Could not set sink to default")
  end.
Proof.
  simpl. rewrite bluetooth_sink_outcome.
  destruct (truthy (sink_address action)) as [a|]; simpl.
  - unfold coordinator_set_sink.
    destruct (hw_set_sink (Some a) (hardware (dm w))) as [[] hw]; simpl;
      [|done].
    split; [done|]. intros d. apply marked_lookup.
  - unfold coordinator_unset_sinks.
    destruct (hw_set_sink None (hardware (dm w))) as [[] hw]; simpl; [|done].
    split; [done|]. intros a d Hlook.
    apply lookup_fmap_Some in Hlook as (d0 & <- & _). done.
Qed.

End Coordinated.

(** * Properties of the video route over the playback queue *)

Section Queueing.
Context {D R W : Type}.
Context `{!WebSocketManager W}.
Variable resolve : string → option Metadata.
Variable item_to_dict : QueueItem → R.
Variables transport_play transport_pause transport_skip_next
  transport_skip_prev transport_skip_queue
  : PlaybackQueue → list Event * PlaybackQueue.

#[local] Instance queueing : PlaybackManager PlaybackQueue QueueItem R :=
  playback_manager resolve item_to_dict transport_play transport_pause
    transport_skip_next transport_skip_prev transport_skip_queue.

#[local] Abbreviation World := (World D PlaybackQueue W).

Lemma playback_queue_video_url_appends (u : string) (q : PlaybackQueue) :
  let '(item, events, q') := playback_queue_video_url resolve u q in
  source_url item = u
  ∧ metadata item = resolve u
  ∧ queue q' = (queue q ++ [item])%list.
Proof.
  unfold playback_queue_video_url. by destruct (queue q).
Qed.

(** C7: for every url posted to the video route, one new item for that url
    is appended at the end of the queue, the items already queued stay as
    they were, and the route returns the dictionary form of the item that
    was created. *)
Theorem load_video_appends (action : VideoAction) (w : World) :
  ∃ item : QueueItem,
    source_url item = url action
    ∧ queue (pm (load_video action w).2) = (queue (pm w) ++ [item])%list
    ∧ (load_video action w).1 = Returned (item_to_dict item).
Proof.
  pose proof (playback_queue_video_url_appends (url action) (pm w)) as Happ.
  unfold load_video. run_handler. unfold call_pm. simpl.
  destruct (playback_queue_video_url resolve (url action) (pm w))
    as [[item events] q'].
  destruct Happ as (Hurl & _ & Hqueue). by exists item.
Qed.

End Queueing.

(** * The theorems at work on the stand-ins *)

Section Runs.

#[local] Existing Instances Doubles.recording_bus Doubles.recording_playback
  Doubles.scripted_devices.

Example websocket_session :
  websocket_endpoint ["play"; "Play"; "frobnicate"; "next_video"]
    (Doubles.world [])
  = (Returned (),
     mkWorld (mkCoordinator Doubles.two_devices [])
       ["play"; "skip_queue"]
       [PlaybackStateChanged; Notice "Unknown data Play";
        Notice "Unknown data frobnicate"; PlaybackStateChanged]
       []).
Proof. reflexivity. Qed.

Example connect_refused :
  bluetooth_connect {| address := "AA:AA" |} (Doubles.world [false])
  = (Raised (ConnectError "AA:AA"),
     mkWorld (mkCoordinator Doubles.two_devices []) [] []
       ["request to connect AA:AA recieved"]).
Proof. reflexivity. Qed.

Example disconnect_sink :
  let outcome :=
    bluetooth_disconnect {| address := "AA:AA" |} (Doubles.world [true]) in
  outcome.1 = Returned [("status", "Disconnected")]
  ∧ wm outcome.2 = [DeviceListChanged; SinkChanged]
  ∧ registry (dm outcome.2) !! "AA:AA"
    = Some (mkDevice "Headphones" false false).
Proof. by vm_compute. Qed.

Example sink_moves :
  let outcome :=
    bluetooth_sink {| sink_address := Some "BB:BB" |} (Doubles.world [true]) in
  outcome.1 = Returned [("message", "BB:BB set as new sink")]
  ∧ is_sink (registry (dm outcome.2)) "BB:BB" = true
  ∧ is_sink (registry (dm outcome.2)) "AA:AA" = false
  ∧ sink_count (registry (dm outcome.2)) = 1.
Proof. by vm_compute. Qed.

Example sink_refused :
  bluetooth_sink {| sink_address := Some "BB:BB" |} (Doubles.world [false])
  = (Raised (SinkError "Could not set sink to BB:BB"),
     mkWorld (mkCoordinator Doubles.two_devices []) [] []
       ["Set BB:BB as new playback device"]).
Proof. reflexivity. Qed.

Example first_video :
  load_video
    (PlaybackManager0 :=
       playback_manager (λ _, None) source_url
         Doubles.idle Doubles.idle Doubles.idle Doubles.idle Doubles.idle)
    {| url := "https://youtu.be/x" |}
    (mkWorld () (mkQueue [] None false) [] [])
  = (Returned "https://youtu.be/x",
     mkWorld ()
       (mkQueue [mkItem "https://youtu.be/x" None Playing] (Some 0) true)
       [QueueChanged; PlaybackStateChanged]
       ["Request to add https://youtu.be/x recieved"]).
Proof. reflexivity. Qed.

(** Headphones are the sink; the sink moves to the speaker, a request for an
    unknown address fails in the hardware, the sink is unset, and the
    headphones are chosen again.  The first of these requests succeeds, and
    it leaves the flag cleared on every device but the speaker. *)
Lemma at_most_one_sink_always_witness :
  at_most_one_sink Doubles.two_devices
  ∧ Forall (λ outcome, at_most_one_sink (registry (dm outcome.2)))
      (observe bluetooth_sink
         [ {| sink_address := Some "BB:BB" |};
           {| sink_address := Some "CC:CC" |};
           {| sink_address := None |};
           {| sink_address := Some "AA:AA" |} ]
         (Doubles.world [true; false; true; true]))
  ∧ (Doubles.scripted (Some "BB:BB") [true; false; true; true]).1 = true
  ∧ (∀ a d,
       a ≠ "BB:BB" →
       registry
         (dm (bluetooth_sink {| sink_address := Some "BB:BB" |}
                (Doubles.world [true; false; true; true])).2) !! a
       = Some d →
       is_current_sink d = false).
Proof.
  assert (at_most_one_sink Doubles.two_devices) as Hinv
    by (vm_compute; lia).
  pose proof
    (at_most_one_sink_always Doubles.scripted Doubles.scripted
       Doubles.scripted
       [ {| sink_address := Some "BB:BB" |};
         {| sink_address := Some "CC:CC" |};
         {| sink_address := None |};
         {| sink_address := Some "AA:AA" |} ]
       (Doubles.world [true; false; true; true]) Hinv) as [Halways Hclears].
  split; [exact Hinv|]. split; [exact Halways|]. split; [reflexivity|].
  exact (Hclears {| sink_address := Some "BB:BB" |}
           (Doubles.world [true; false; true; true]) eq_refl).
Defined.

(** A client sends "frobnicate" and then "next_video": the first is warned
    about, the second skips the queue. *)
Lemma unknown_command_warns_witness :
  ("frobnicate" ∉ recognized)
  ∧ on_message "frobnicate" (Doubles.world [])
    = (Returned (), warned "Unknown data frobnicate" (Doubles.world []))
  ∧ pm (websocket_endpoint ["frobnicate"; "next_video"] (Doubles.world [])).2
    = pm (websocket_endpoint ["next_video"] (Doubles.world [])).2
  ∧ websocket_endpoint ["frobnicate"; "next_video"] (Doubles.world [])
    = (Returned (),
       mkWorld (mkCoordinator Doubles.two_devices []) ["skip_queue"]
         [Notice "Unknown data frobnicate"; PlaybackStateChanged] []).
Proof.
  assert ("frobnicate" ∉ recognized) as Hnot by compute_done.
  pose proof (unknown_command_warns "frobnicate" [] (Doubles.world []) Hnot)
    as (Hwarn & _ & _ & _ & _ & _ & _ & Hskip).
  pose proof (unknown_command_warns "frobnicate" ["next_video"]
                (Doubles.world []) Hnot) as (_ & _ & Hsame & _).
  split; [exact Hnot|]. split; [exact Hwarn|]. split; [exact Hsame|].
  exact Hskip.
Defined.

(** A set-sink request with the empty string as its address. *)
Lemma falsy_address_unsets_witness :
  (sink_address {| sink_address := Some "" |} = None
   ∨ sink_address {| sink_address := Some "" |} = Some "")
  ∧ bluetooth_sink {| sink_address := Some "" |} (Doubles.world [true])
    = (Returned [("message", "default set as new sink")],
       mkWorld
         (mkCoordinator (with_sink false <$> Doubles.two_devices) [])
         [] [SinkChanged] ["Set default as playback device"]).
Proof.
  assert (sink_address {| sink_address := Some "" |} = None
          ∨ sink_address {| sink_address := Some "" |} = Some "") as Hfalsy
    by (right; reflexivity).
  split; [exact Hfalsy|].
  exact (falsy_address_unsets {| sink_address := Some "" |}
           (Doubles.world [true]) Hfalsy).
Defined.

End Runs.

(** * The request layer as a whole *)

(** ** Inputs of the running application *)

(** What reaches the handlers of [main.py] while the application runs: a
    request for one of the four routes that change state, or a message on
    the websocket. *)
Inductive Input : Type :=
| PostConnect (action : DeviceAction)
| PostDisconnect (action : DeviceAction)
| PutSetSink (action : SinkAction)
| PostVideo (action : VideoAction)
| Message (data : string).

(** What the handler hands back: a JSON object, the dictionary form of a
    video, or nothing (the websocket loop body). *)
Inductive Reply (R : Type) : Type :=
| Json (body : JsonObject)
| Video (body : R)
| Silent.
Arguments Json {R} body.
Arguments Video {R} body.
Arguments Silent {R}.

(** The inputs that go to the device manager, and those that go to the
    playback manager. *)
Definition for_devices (input : Input) : bool :=
  match input with
  | PostConnect _ | PostDisconnect _ | PutSetSink _ => true
  | PostVideo _ | Message _ => false
  end.

Definition for_playback (input : Input) : bool :=
  match input with
  | PostVideo _ | Message _ => true
  | PostConnect _ | PostDisconnect _ | PutSetSink _ => false
  end.

Section Serving.
Context {D P V R W : Type}.
Context `{!DeviceManager D, !PlaybackManager P V R, !WebSocketManager W}.

#[local] Abbreviation M := (M D P W).
#[local] Abbreviation World := (World D P W).

(** The route decorators of [main.py]: which handler an input runs. *)
Definition handle (input : Input) : M (Reply R) :=
  match input with
  | PostConnect action => body ← bluetooth_connect action; mret (Json body)
  | PostDisconnect action =>
      body ← bluetooth_disconnect action; mret (Json body)
  | PutSetSink action => body ← bluetooth_sink action; mret (Json body)
  | PostVideo action => body ← load_video action; mret (Video body)
  | Message data => on_message data;; mret Silent
  end.

(** The world after a run of inputs, each handled to completion on the
    world the previous one left; a handler that raises fails its own
    request only. *)
Definition serve (inputs : list Input) (w : World) : World :=
  foldl (λ w input, (handle input w).2) w inputs.

(** The websocket manager after it warned about each message of a stream,
    in order. *)
Definition warned_all (stream : list string) (bus : W) : W :=
  foldl (λ bus data, warn ("Unknown data " +:+ data) bus) bus stream.

End Serving.

(** ** Streams of websocket messages *)

Section Streams.
Context {D P V R W : Type}.
Context `{!PlaybackManager P V R, !WebSocketManager W}.

#[local] Abbreviation World := (World D P W).

Lemma on_message_dm (data : string) (w : World) :
  dm (on_message data w).2 = dm w.
Proof.
  unfold on_message, command_arms, match_literal.
  repeat (case_match; [by rewrite get_pm_dispatched|]). done.
Qed.

(** X1: handling a stream in two parts is handling the first part and then
    the second on the world the first left: the loop keeps no state of its
    own between messages. *)
Theorem websocket_endpoint_app (before after : list string) (w : World) :
  websocket_endpoint (before ++ after)%list w
  = websocket_endpoint after (websocket_endpoint before w).2.
Proof.
  revert w. induction before as [|data before IH]; intros w; [done|].
  simpl app. rewrite !websocket_endpoint_cons. apply IH.
Qed.

(** X3: unknown messages have no influence on playback, however many there
    are and wherever they stand: the playback state after a stream is the
    playback state after the recognized commands of that stream alone. *)
Theorem websocket_endpoint_recognized_only (stream : list string)
    (w : World) :
  pm (websocket_endpoint stream w).2
  = pm (websocket_endpoint (filter (λ data, data ∈ recognized) stream) w).2.
Proof.
  revert w. induction stream as [|data stream IH]; intros w; [done|].
  rewrite websocket_endpoint_cons.
  destruct (decide (data ∈ recognized)) as [Hin|Hnot].
  - rewrite filter_cons_True by done.
    rewrite websocket_endpoint_cons. apply IH.
  - rewrite filter_cons_False by done. rewrite IH.
    apply websocket_endpoint_pm.
    by rewrite (on_message_unknown data w Hnot).
Qed.

(** X4: on a stream in which no message is a recognized command the loop
    warns about every message, in the order received, and does nothing
    else. *)
Theorem websocket_endpoint_all_unknown (stream : list string) (w : World) :
  Forall (λ data, data ∉ recognized) stream →
  websocket_endpoint stream w
  = (Returned (),
     mkWorld (dm w) (pm w) (warned_all stream (wm w)) (log w)).
Proof.
  intros Hall. revert w.
  induction Hall as [|data stream Hnot _ IH]; intros w.
  - by destruct w.
  - rewrite websocket_endpoint_cons, (on_message_unknown data w Hnot).
    by rewrite IH.
Qed.

End Streams.

(** ** Recognition of commands, beyond the five literals *)

(** The characters the five literals are written with: lower-case letters
    and the underscore. *)
Definition command_char (c : Ascii.ascii) : bool :=
  ((97 <=? Ascii.nat_of_ascii c) && (Ascii.nat_of_ascii c <=? 122))%nat
  || (Ascii.nat_of_ascii c =? 95)%nat.

Section Recognition.
Context {D P V R W : Type}.
Context `{!PlaybackManager P V R, !WebSocketManager W}.

#[local] Abbreviation World := (World D P W).

Lemma match_literal_Permutation {A} (data : string)
    (arms arms' : list (string * A)) (wildcard : A) :
  NoDup arms.*1 → arms ≡ₚ arms' →
  match_literal data arms wildcard = match_literal data arms' wildcard.
Proof.
  intros Hdistinct Hperm. induction Hperm as
    [|[literal body] arms arms' Hperm IH
     |[literal1 body1] [literal2 body2] arms
     |arms arms' arms'' Hperm1 IH1 Hperm2 IH2]; simpl in *.
  - done.
  - apply NoDup_cons in Hdistinct as [_ Hdistinct].
    destruct (String.eqb data literal); [done | by apply IH].
  - apply NoDup_cons in Hdistinct as [Hne _].
    apply not_elem_of_cons in Hne as [Hne _].
    destruct (String.eqb_spec data literal1), (String.eqb_spec data literal2);
      try done.
    by destruct Hne; subst.
  - rewrite IH1 by done. apply IH2.
    by rewrite <- Hperm1.
Qed.

Lemma recognized_chars (data : string) (c : Ascii.ascii) :
  data ∈ recognized → c ∈ String.list_ascii_of_string data → command_char c = true.
Proof.
  unfold recognized. rewrite !elem_of_cons, elem_of_nil.
  intros [->|[->|[->|[->|[->|[]]]]]]; simpl;
    rewrite !elem_of_cons, elem_of_nil;
    intros Hc; repeat (destruct Hc as [->|Hc]; [reflexivity|]); done.
Qed.

Lemma recognized_extended (command suffix : string) :
  command ∈ recognized → suffix ≠ "" → command +:+ suffix ∉ recognized.
Proof.
  unfold recognized. rewrite !elem_of_cons, !elem_of_nil.
  intros [->|[->|[->|[->|[->|[]]]]]] Hsuffix
         [Heq|[Heq|[Heq|[Heq|[Heq|[]]]]]];
    cbv beta iota delta [String.append] in Heq; by simplify_eq.
Qed.

(** X5: the five arms of the match can stand in any order: since the
    literals differ from one another, no arm shadows another, and every
    reordering of the arms runs the same body for every message. *)
Theorem arms_order_irrelevant (arms : list (string * M D P W ()))
    (data : string) :
  command_arms ≡ₚ arms →
  match_literal data arms (call_wm (warn ("Unknown data " +:+ data)))
  = on_message data.
Proof.
  intros Hperm. unfold on_message. symmetry.
  apply match_literal_Permutation; [|done].
  rewrite command_arms_literals. compute_done.
Qed.

(** X6: a message that holds any character other than a lower-case letter
    or an underscore (a capital, a blank, a line end, a digit) is never a
    command, wherever that character stands: the handler warns about it. *)
Theorem foreign_character_unknown (data : string) (c : Ascii.ascii) (w : World) :
  c ∈ String.list_ascii_of_string data → command_char c = false →
  on_message data w = (Returned (), warned ("Unknown data " +:+ data) w).
Proof.
  intros Hc Hforeign. apply on_message_unknown. intros Hin.
  pose proof (recognized_chars data c Hin Hc). congruence.
Qed.

(** X7: a command followed by anything at all is not that command nor any
    other: no literal is the beginning of another, so the longer message
    takes the wildcard arm. *)
Theorem extended_command_unknown (command suffix : string) (w : World) :
  command ∈ recognized → suffix ≠ "" →
  on_message (command +:+ suffix) w
  = (Returned (), warned ("Unknown data " +:+ command +:+ suffix) w).
Proof.
  intros Hin Hsuffix. apply on_message_unknown.
  by apply recognized_extended.
Qed.

End Recognition.

(** ** Requests and messages, interleaved *)

(** The name a set-sink request uses for its target in its answers. *)
Definition sink_target (action : SinkAction) : string :=
  match truthy (sink_address action) with
  | Some address => address
  | None => "default"
  end.

Section Interleaving.
Context {D P V R W : Type}.
Context `{!DeviceManager D, !PlaybackManager P V R, !WebSocketManager W}.

#[local] Abbreviation World := (World D P W).

Lemma call_pm_world {A} (method : P → A * list Event * P) (w : World) :
  call_pm method w
  = (Returned (method (pm w)).1.1,
     mkWorld (dm w) (method (pm w)).2
       (publish (method (pm w)).1.2 (wm w)) (log w)).
Proof. unfold call_pm. by destruct (method (pm w)) as [[a events] p]. Qed.

Lemma bluetooth_disconnect_run (action : DeviceAction) (w : World) :
  let '(ok, events, d) := disconnect_device (address action) (dm w) in
  dm (bluetooth_disconnect action w).2 = d
  ∧ pm (bluetooth_disconnect action w).2 = pm w.
Proof.
  unfold bluetooth_disconnect. run_handler. rewrite call_dm_world. simpl.
  by destruct (disconnect_device (address action) (dm w)) as [[[] events] d].
Qed.

Lemma load_video_run (action : VideoAction) (w : World) :
  load_video action w
  = (Returned (to_dict (queue_video_url (url action) (pm w)).1.1),
     mkWorld (dm w) (queue_video_url (url action) (pm w)).2
       (publish (queue_video_url (url action) (pm w)).1.2 (wm w))
       (log w ++ ["Request to add " +:+ url action +:+ " recieved"])).
Proof.
  unfold load_video. run_handler. by rewrite call_pm_world.
Qed.

(** The world an input leaves is the world its handler leaves. *)
Lemma handle_world (input : Input) (w : World) :
  (handle input w).2
  = match input with
    | PostConnect action => (bluetooth_connect action w).2
    | PostDisconnect action => (bluetooth_disconnect action w).2
    | PutSetSink action => (bluetooth_sink action w).2
    | PostVideo action => (load_video action w).2
    | Message data => (on_message data w).2
    end.
Proof.
  destruct input as [action|action|action|action|data]; unfold handle;
    run_handler.
  - by destruct (bluetooth_connect action w) as [[body|e] w'].
  - by destruct (bluetooth_disconnect action w) as [[body|e] w'].
  - by destruct (bluetooth_sink action w) as [[body|e] w'].
  - by destruct (load_video action w) as [[body|e] w'].
  - by destruct (on_message data w) as [[[]|e] w'].
Qed.

(** An input for the device manager leaves the playback state alone, and
    what it does to the device state depends on the device state only. *)
Lemma handle_for_devices (input : Input) (w w' : World) :
  for_devices input = true →
  pm (handle input w).2 = pm w
  ∧ (dm w' = dm w → dm (handle input w').2 = dm (handle input w).2).
Proof.
  intros Hkind. rewrite !handle_world.
  destruct input as [action|action|action|action|data]; try done.
  - pose proof (bluetooth_connect_outcome action w) as Hrun.
    pose proof (bluetooth_connect_outcome action w') as Hrun'.
    split; [|intros Hdm; rewrite Hdm in Hrun'];
      destruct (connect_device (address action) (dm w)) as [[[] events] d];
      simpl in *; by rewrite ?Hrun, ?Hrun'.
  - pose proof (bluetooth_disconnect_run action w) as Hrun.
    pose proof (bluetooth_disconnect_run action w') as Hrun'.
    split; [clear Hrun'|intros Hdm; rewrite Hdm in Hrun'];
      destruct (disconnect_device (address action) (dm w))
        as [[ok events] d]; simpl in *; intuition congruence.
  - rewrite !bluetooth_sink_outcome.
    split; [|intros ->];
      (destruct (truthy (sink_address action)) as [a|];
       [ destruct (set_sink a (dm w)) as [[ok events] d]
       | destruct (unset_sinks (dm w)) as [[ok events] d] ]); done.
Qed.

(** An input for the playback manager leaves the device state alone, and
    what it does to the playback state depends on the playback state
    only. *)
Lemma handle_for_playback (input : Input) (w w' : World) :
  for_devices input = false →
  dm (handle input w).2 = dm w
  ∧ (pm w' = pm w → pm (handle input w').2 = pm (handle input w).2).
Proof.
  intros Hkind. rewrite !handle_world.
  destruct input as [action|action|action|action|data]; try done.
  - rewrite !load_video_run. split; [done|]. simpl. by intros ->.
  - split; [apply on_message_dm | apply on_message_pm].
Qed.

Lemma serve_dm (inputs : list Input) (w w' : World) :
  dm w' = dm w →
  dm (serve inputs w') = dm (serve (filter for_devices inputs) w).
Proof.
  revert w w'. induction inputs as [|input inputs IH]; intros w w' Hdm;
    [done|].
  destruct (for_devices input) eqn:Hkind.
  - rewrite filter_cons_True by by rewrite Hkind. simpl. apply IH.
    destruct (handle_for_devices input w w' Hkind) as [_ Hsame].
    by apply Hsame.
  - rewrite filter_cons_False by (rewrite Hkind; simpl; tauto).
    simpl. apply IH.
    destruct (handle_for_playback input w' w' Hkind) as [-> _]. done.
Qed.

Lemma serve_pm (inputs : list Input) (w w' : World) :
  pm w' = pm w →
  pm (serve inputs w') = pm (serve (filter for_playback inputs) w).
Proof.
  revert w w'. induction inputs as [|input inputs IH]; intros w w' Hpm;
    [done|].
  destruct (for_devices input) eqn:Hkind.
  - rewrite filter_cons_False by (destruct input; naive_solver).
    simpl. apply IH.
    destruct (handle_for_devices input w' w' Hkind) as [-> _]. done.
  - rewrite filter_cons_True by (destruct input; naive_solver).
    simpl. apply IH.
    destruct (handle_for_playback input w w' Hkind) as [_ Hsame].
    by apply Hsame.
Qed.

(** X8: however device requests, video requests and websocket messages
    are interleaved, the device state at the end is the one the device
    requests alone would have produced, and the playback state at the end
    is the one the video requests and messages alone would have produced:
    neither side can disturb the other through the request layer. *)
Theorem serve_sides_independent (inputs : list Input) (w : World) :
  dm (serve inputs w) = dm (serve (filter for_devices inputs) w)
  ∧ pm (serve inputs w) = pm (serve (filter for_playback inputs) w).
Proof. split; [by apply serve_dm | by apply serve_pm]. Qed.

End Interleaving.

(** ** What the device routes answer *)

Section Answers.
Context {D P W : Type}.
Context `{!DeviceManager D, !WebSocketManager W}.

#[local] Abbreviation World := (World D P W).

Lemma string_length_append (s t : string) :
  String.length (s +:+ t) = (String.length s + String.length t)%nat.
Proof. induction s as [|c s IH]; simpl; [done | by rewrite IH]. Qed.

Lemma string_append_cancel (s1 s2 t : string) :
  s1 +:+ t = s2 +:+ t → s1 = s2.
Proof.
  revert s2. induction s1 as [|c1 s1 IH]; intros [|c2 s2] Heq;
    cbv beta iota delta [String.append] in Heq;
    fold String.append in Heq.
  - done.
  - apply (f_equal String.length) in Heq. simpl in Heq.
    rewrite string_length_append in Heq. lia.
  - apply (f_equal String.length) in Heq. simpl in Heq.
    rewrite string_length_append in Heq. lia.
  - simplify_eq. f_equal. by apply IH.
Qed.

Lemma truthy_nonempty (a : string) : a ≠ "" → truthy (Some a) = Some a.
Proof. by destruct a. Qed.

(** X9: a set-sink request with a non-empty address takes the set branch
    whatever the address looks like: the outcome is that of the manager's
    set_sink for this very address, with the address in the log record and
    in the answer, and unset_sinks plays no part. *)
Theorem truthy_address_sets (a : string) (w : World) :
  a ≠ "" →
  let '(ok, events, d) := set_sink a (dm w) in
  bluetooth_sink {| sink_address := Some a |} w
  = (if ok then Returned [("message", a +:+ " set as new sink")]
     else Raised (SinkError ("Could not set sink to " +:+ a)),
     mkWorld d (pm w) (publish events (wm w))
       (log w ++ ["Set " +:+ a +:+ " as new playback device"])).
Proof.
  intros Hfull. rewrite bluetooth_sink_outcome. simpl sink_address.
  rewrite (truthy_nonempty a Hfull).
  by destruct (set_sink a (dm w)) as [[ok events] d].
Qed.

Lemma bluetooth_sink_answer (sink : SinkAction) (w : World) :
  match (bluetooth_sink sink w).1 with
  | Returned body =>
      body = [("message", sink_target sink +:+ " set as new sink")]
  | Raised e => e = SinkError ("Could not set sink to " +:+ sink_target sink)
  end.
Proof.
  rewrite bluetooth_sink_outcome. unfold sink_target.
  destruct (truthy (sink_address sink)) as [a|].
  - by destruct (set_sink a (dm w)) as [[[] events] d].
  - by destruct (unset_sinks (dm w)) as [[[] events] d].
Qed.

(** X10: the three device routes have one answer each and one error each:
    connect answers Connected or raises ConnectError with the requested
    address, disconnect answers Disconnected or raises DisconnectError with
    the requested address, and set-sink answers with, or raises SinkError
    about, the target it was asked for; no route raises the error of
    another. *)
Theorem device_routes_answers (device : DeviceAction) (sink : SinkAction)
    (w : World) :
  match (bluetooth_connect device w).1 with
  | Returned body => body = [("status", "Connected")]
  | Raised e => e = ConnectError (address device)
  end
  ∧ match (bluetooth_disconnect device w).1 with
    | Returned body => body = [("status", "Disconnected")]
    | Raised e => e = DisconnectError (address device)
    end
  ∧ match (bluetooth_sink sink w).1 with
    | Returned body =>
        body = [("message", sink_target sink +:+ " set as new sink")]
    | Raised e =>
        e = SinkError ("Could not set sink to " +:+ sink_target sink)
    end.
Proof.
  split; [|split].
  - pose proof (bluetooth_connect_outcome device w) as Hrun.
    destruct (connect_device (address device) (dm w)) as [[[] events] d];
      simpl in Hrun; by rewrite Hrun.
  - unfold bluetooth_disconnect. run_handler. rewrite call_dm_world. simpl.
    by destruct (disconnect_device (address device) (dm w))
      as [[[] events] d].
  - apply bluetooth_sink_answer.
Qed.

(** X11: the answer of a successful set-sink request tells the target: two
    requests that both return give the same answer exactly when their
    targets are the same, where a request without (or with an empty)
    address has the target "default"; so a device whose address is spelled
    "default" is answered like an unset. *)
Theorem sink_answer_tells_target (sink1 sink2 : SinkAction) (w1 w2 : World)
    (body1 body2 : JsonObject) :
  (bluetooth_sink sink1 w1).1 = Returned body1 →
  (bluetooth_sink sink2 w2).1 = Returned body2 →
  (body1 = body2 ↔ sink_target sink1 = sink_target sink2).
Proof.
  intros Hrun1 Hrun2.
  pose proof (bluetooth_sink_answer sink1 w1) as Hanswer1.
  pose proof (bluetooth_sink_answer sink2 w2) as Hanswer2.
  rewrite Hrun1 in Hanswer1. rewrite Hrun2 in Hanswer2. subst.
  split.
  - intros Heq. simplify_eq. by eapply string_append_cancel.
  - by intros ->.
Qed.

End Answers.

(** ** The further theorems at work on the stand-ins *)

Section MoreRuns.

(** The characters with codes 80 (capital P) and 10 (line feed). *)
#[local] Abbreviation capital_p := (Ascii.ascii_of_nat 80).
#[local] Abbreviation line_feed := (Ascii.ascii_of_nat 10).

#[local] Existing Instances Doubles.recording_bus Doubles.recording_playback
  Doubles.scripted_devices.

Example mixed_traffic :
  let w :=
    serve
      [ Message "play"; PutSetSink {| sink_address := Some "BB:BB" |};
        Message "Play"; PostVideo {| url := "https://youtu.be/x" |};
        PostConnect {| address := "CC:CC" |}; Message "next_video" ]
      (Doubles.world [true; false]) in
  pm w = ["play"; "queue_video_url"; "skip_queue"]
  ∧ is_sink (registry (dm w)) "BB:BB" = true
  ∧ log w = [ "Set BB:BB as new playback device";
              "Request to add https://youtu.be/x recieved";
              "request to connect CC:CC recieved" ].
Proof. by vm_compute. Qed.

(** Two messages, neither of them a command. *)
Lemma websocket_endpoint_all_unknown_witness :
  Forall (λ data, data ∉ recognized) ["Play"; "stop"]
  ∧ websocket_endpoint ["Play"; "stop"] (Doubles.world [])
    = (Returned (),
       mkWorld (dm (Doubles.world [])) (pm (Doubles.world []))
         (warned_all ["Play"; "stop"] (wm (Doubles.world [])))
         (log (Doubles.world []))).
Proof.
  assert (Forall (λ data, data ∉ recognized) ["Play"; "stop"]) as Hall
    by compute_done.
  split; [exact Hall|].
  exact (websocket_endpoint_all_unknown ["Play"; "stop"]
           (Doubles.world []) Hall).
Defined.

(** The arms written bottom to top. *)
Lemma arms_order_irrelevant_witness :
  command_arms (D := Coordinator (list bool)) ≡ₚ reverse command_arms
  ∧ match_literal "pause" (reverse command_arms)
      (call_wm (warn ("Unknown data " +:+ "pause")))
    = on_message (D := Coordinator (list bool)) "pause".
Proof.
  assert (command_arms (D := Coordinator (list bool))
          ≡ₚ reverse command_arms) as Hperm
    by (symmetry; apply reverse_Permutation).
  split; [exact Hperm|].
  exact (arms_order_irrelevant (reverse command_arms) "pause" Hperm).
Defined.

(** A capital letter at the start. *)
Lemma foreign_character_unknown_witness :
  (capital_p ∈ String.list_ascii_of_string "Play")
  ∧ command_char capital_p = false
  ∧ on_message "Play" (Doubles.world [])
    = (Returned (), warned ("Unknown data " +:+ "Play") (Doubles.world [])).
Proof.
  assert (capital_p ∈ String.list_ascii_of_string "Play") as Hin
    by compute_done.
  assert (command_char capital_p = false) as Hforeign by reflexivity.
  split; [exact Hin|]. split; [exact Hforeign|].
  exact (foreign_character_unknown "Play" capital_p (Doubles.world [])
           Hin Hforeign).
Defined.

(** A command with a line end after it. *)
Lemma extended_command_unknown_witness :
  ("play" ∈ recognized)
  ∧ String line_feed "" ≠ ""
  ∧ on_message ("play" +:+ String line_feed "") (Doubles.world [])
    = (Returned (),
       warned ("Unknown data " +:+ "play" +:+ String line_feed "")
         (Doubles.world [])).
Proof.
  assert ("play" ∈ recognized) as Hin by compute_done.
  assert (String line_feed "" ≠ "") as Hsuffix by discriminate.
  split; [exact Hin|]. split; [exact Hsuffix|].
  exact (extended_command_unknown "play" (String line_feed "")
           (Doubles.world []) Hin Hsuffix).
Defined.

(** The speaker becomes the sink. *)
Lemma truthy_address_sets_witness :
  "BB:BB" ≠ ""
  ∧ bluetooth_sink {| sink_address := Some "BB:BB" |} (Doubles.world [true])
    = (Returned [("message", "BB:BB set as new sink")],
       mkWorld
         (mkCoordinator
            (alter (with_sink true) "BB:BB"
               (with_sink false <$> Doubles.two_devices)) [])
         [] [SinkChanged] ["Set BB:BB as new playback device"]).
Proof.
  assert ("BB:BB" ≠ "") as Hfull by discriminate.
  split; [exact Hfull|].
  exact (truthy_address_sets "BB:BB" (Doubles.world [true]) Hfull).
Defined.

(** An address spelled "default" and a request without address. *)
Lemma sink_answer_tells_target_witness :
  (bluetooth_sink {| sink_address := Some "default" |}
     (Doubles.world [true])).1
  = Returned [("message", "default set as new sink")]
  ∧ (bluetooth_sink {| sink_address := None |} (Doubles.world [true])).1
    = Returned [("message", "default set as new sink")]
  ∧ ([("message", "default set as new sink")]
     = [("message", "default set as new sink")]
     ↔ sink_target {| sink_address := Some "default" |}
       = sink_target {| sink_address := None |}).
Proof.
  split; [reflexivity|]. split; [reflexivity|].
  exact (sink_answer_tells_target
           {| sink_address := Some "default" |} {| sink_address := None |}
           (Doubles.world [true]) (Doubles.world [true])
           _ _ eq_refl eq_refl).
Defined.

End MoreRuns.
